(** * protocol-offline.ts: the offline Kaspa protocol of the AirGap module

    A shallow embedding of [MyOfflineProtocol] (src/protocol-offline.ts)
    and the properties of its key-pair derivation, byte codec and
    descriptors.

    Conventions of the embedding:
    - a JavaScript string is the list of its UTF-16 code units ([N]);
    - a [Uint8Array] is a list of [Z], every element in [0, 256); an
      element store wraps modulo 256 and is dropped when out of range;
    - a thrown value is a [JsThrown]; an [async] method (or one returning
      [Promise.resolve]) yields a settled [Promise];
    - the objects handed to the methods by the host live in a [Heap] and
      are passed by reference. *)

From Stdlib Require Import ZArith NArith Ascii String.
From stdpp Require Import base numbers list gmap.

Local Open Scope Z_scope.

(** ** JavaScript strings *)

Module Js.

Abbreviation JsString := (list N).

(** The code units of an ASCII literal. *)
Fixpoint lit (s : string) : JsString :=
  match s with
  | EmptyString => []
  | String a r => N_of_ascii a :: lit r
  end.

(** [String.prototype.substr(start, length)] for non-negative arguments. *)
Definition substr (s : JsString) (start len : nat) : JsString :=
  take len (drop start s).

(** [Array.prototype.join('')] on an array of strings. *)
Definition join_empty (parts : list JsString) : JsString := concat parts.

(** [String.prototype.padStart(targetLength, fill)] with a one-unit filler. *)
Definition padStart (s : JsString) (targetLength : nat) (fill : N) : JsString :=
  replicate (targetLength - length s) fill ++ s.

(** *** parseInt *)

(** StrWhiteSpaceChar: WhiteSpace and LineTerminator code units. *)
Definition isStrWhiteSpaceChar (c : N) : bool :=
  ((c =? 9) || (c =? 10) || (c =? 11) || (c =? 12) || (c =? 13) || (c =? 32)
   || (c =? 160) || (c =? 5760) || ((8192 <=? c) && (c <=? 8202))
   || (c =? 8232) || (c =? 8233) || (c =? 8239) || (c =? 8287)
   || (c =? 12288) || (c =? 65279))%N.

(** The value of a digit or letter: 0-9, then a-z / A-Z as 10-35. *)
Definition digitValue (c : N) : option Z :=
  if ((48 <=? c) && (c <=? 57))%N then Some (Z.of_N c - 48)
  else if ((97 <=? c) && (c <=? 122))%N then Some (Z.of_N c - 87)
  else if ((65 <=? c) && (c <=? 90))%N then Some (Z.of_N c - 55)
  else None.

Definition isRadixDigit (R : Z) (c : N) : bool :=
  match digitValue c with
  | Some v => v <? R
  | None => false
  end.

Fixpoint dropWhile {A} (p : A → bool) (l : list A) : list A :=
  match l with
  | [] => []
  | x :: r => if p x then dropWhile p r else l
  end.

Fixpoint takeWhile {A} (p : A → bool) (l : list A) : list A :=
  match l with
  | [] => []
  | x :: r => if p x then x :: takeWhile p r else []
  end.

(** The mathematical value of a run of radix-[R] digits. *)
Definition digitsValue (R : Z) (ds : JsString) : Z :=
  foldl (λ acc c, acc * R + default 0 (digitValue c)) 0 ds.

(** [parseInt(string, radix)], a Number being an exact integer or NaN
    ([None]).  The steps are those of ECMA-262: trim leading white space,
    read a sign, validate the radix, strip a [0x]/[0X] prefix when the radix
    is 16 (or absent, 0), then read the longest run of digits.  The program
    only parses strings of at most two code units, whose value is exact as a
    Number; the sign of a zero is not represented. *)
Definition parseInt (input : JsString) (radix : Z) : option Z :=
  let str := dropWhile isStrWhiteSpaceChar input in
  let sign : Z :=
    match str with c :: _ => if (c =? 45)%N then -1 else 1 | [] => 1 end in
  let str := match str with
             | c :: r => if ((c =? 43) || (c =? 45))%N then r else str
             | [] => str
             end in
  if negb (radix =? 0) && ((radix <? 2) || (36 <? radix)) then None
  else
    let stripPrefix := (radix =? 0) || (radix =? 16) in
    let R := if radix =? 0 then 10 else radix in
    let '(str, R) :=
      match str with
      | c0 :: c1 :: r =>
          if stripPrefix && (c0 =? 48)%N && ((c1 =? 120) || (c1 =? 88))%N
          then (r, 16) else (str, R)
      | _ => (str, R)
      end in
    match takeWhile (isRadixDigit R) str with
    | [] => None
    | ds => Some (sign * digitsValue R ds)
    end.

(** [Number.prototype.toString(16)] on an integer. *)
Definition hexDigit (v : Z) : N :=
  if v <? 10 then Z.to_N (v + 48) else Z.to_N (v + 87).

Fixpoint hexDigits (fuel : nat) (n : Z) (acc : JsString) : JsString :=
  match fuel with
  | O => acc
  | S fuel' =>
      let acc' := hexDigit (n mod 16) :: acc in
      if n / 16 =? 0 then acc' else hexDigits fuel' (n / 16) acc'
  end.

Definition toString16 (n : Z) : JsString :=
  if n <? 0 then 45%N :: hexDigits (S (Z.to_nat (Z.log2 (- n)))) (- n) []
  else hexDigits (S (Z.to_nat (Z.log2 n))) n [].

End Js.
Import Js.

(** ** Thrown values, completions and promises *)

(** What a [throw] carries: the RangeError of a typed-array copy that does
    not fit, the TypeError of a property read on [undefined], a value thrown
    by [../crypto/kaspa] (as its rendering), and [JsError prefix cause] for
    [new Error(`<prefix>${cause}`)], the message kept as its fixed prefix
    and the interpolated value. *)
Inductive JsThrown : Type :=
  | RangeError : JsThrown
  | TypeError : JsThrown
  | Foreign : JsString → JsThrown
  | JsError : JsString → JsThrown → JsThrown.

Inductive Completion (A : Type) : Type :=
  | Normal : A → Completion A
  | Throw : JsThrown → Completion A.
Arguments Normal {A} _.
Arguments Throw {A} _.

#[global] Instance Completion_ret : MRet Completion := λ A v, Normal v.

#[global] Instance Completion_bind : MBind Completion := λ A B k c,
  match c with
  | Normal v => k v
  | Throw e => Throw e
  end.

(** [try { body } catch (error) { handler }]. *)
Definition tryCatch {A} (body : Completion A) (handler : JsThrown → Completion A)
  : Completion A :=
  match body with
  | Normal v => Normal v
  | Throw error => handler error
  end.

(** The settled state of the promise an [async] method returns. *)
Inductive Promise (A : Type) : Type :=
  | Resolved : A → Promise A
  | Rejected : JsThrown → Promise A.
Arguments Resolved {A} _.
Arguments Rejected {A} _.

Definition async {A} (body : Completion A) : Promise A :=
  match body with
  | Normal v => Resolved v
  | Throw e => Rejected e
  end.

Definition rejected {A} (p : Promise A) : Prop := ∃ e, p = Rejected e.
Definition fulfilled {A} (p : Promise A) : Prop := ∃ v, p = Resolved v.

(** ** Uint8Array *)

Module TypedArray.

Abbreviation Uint8Array := (list Z).

(** [new Uint8Array(length)]: zero-filled.  A fractional length is truncated
    by ToIndex before the call reaches this point. *)
Definition new (length : nat) : Uint8Array := replicate length 0.

(** ToUint8 of a Number: NaN becomes 0, an integer wraps modulo 256. *)
Definition ToUint8 (v : option Z) : Z :=
  match v with
  | None => 0
  | Some n => n mod 256
  end.

(** [bytes[index] = v]: an out-of-range store is dropped. *)
Definition store (bytes : Uint8Array) (index : nat) (v : option Z) : Uint8Array :=
  <[index := ToUint8 v]> bytes.

(** [target.set(source, offset)]: a RangeError when the source does not fit
    at the offset, otherwise the elements are copied in place. *)
Definition set (target source : Uint8Array) (offset : nat) : Completion Uint8Array :=
  if (length target <? length source + offset)%nat then Throw RangeError
  else Normal (list_inserts offset source target).

(** Every element is a byte. *)
Definition wf (bytes : Uint8Array) : Prop := Forall (λ b, 0 ≤ b < 256) bytes.

End TypedArray.
Import TypedArray.

(** ** The byte codec of the module *)

(** The loop of lines 89-91 (and 94-96, 99-101):
    [for (let i = 0; i < str.length; i += 2)
       bytes[i / 2] = parseInt(str.substr(i, 2), 16);] *)
Fixpoint hexLoop (fuel : nat) (str : JsString) (i : nat) (bytes : Uint8Array)
  : Uint8Array :=
  match fuel with
  | O => bytes
  | S fuel' =>
      if (i <? length str)%nat
      then hexLoop fuel' str (i + 2)
             (store bytes (i / 2) (parseInt (substr str i 2) 16))
      else bytes
  end.

(** Lines 88-91: the array is allocated with [str.length / 2] elements
    (truncated) and filled by the loop, which runs at most
    [ceil(str.length / 2)] times. *)
Definition hexToBytes (str : JsString) : Uint8Array :=
  hexLoop (length str) str 0 (new (length str / 2)).

(** Line 119:
    [Array.from(bytes, byte => byte.toString(16).padStart(2, '0')).join('')]. *)
Definition byteToHex (byte : Z) : JsString := padStart (toString16 byte) 2 48%N.

Definition bytesToHex (bytes : Uint8Array) : JsString :=
  join_empty (map byteToHex bytes).

(** ** The values crossing the module boundary (@airgap/module-kit) *)

Module CryptoDerivative.
Record t : Type := mk { secretKey : JsString; chainCode : JsString; publicKey : JsString }.
End CryptoDerivative.

Module SecretKey.
Record t : Type := mk { type : JsString; format : JsString; value : JsString }.
End SecretKey.

Module PublicKey.
Record t : Type := mk { type : JsString; format : JsString; value : JsString }.
End PublicKey.

Module KeyPair.
Record t : Type := mk { secretKey : SecretKey.t; publicKey : PublicKey.t }.
End KeyPair.

(** ** getKeyPairFromDerivative (lines 80-130) *)

Definition deriveFailure : JsString := lit "Failed to derive key pair from derivative: ".

Definition getKeyPairFromDerivative (derivative : CryptoDerivative.t)
  : Promise KeyPair.t :=
  async (tryCatch
    (let secretKeyBytes := hexToBytes (CryptoDerivative.secretKey derivative) in
     let chainCodeBytes := hexToBytes (CryptoDerivative.chainCode derivative) in
     let publicKeyBytes := hexToBytes (CryptoDerivative.publicKey derivative) in
     let extendedPrivateKey := new 96 in
     extendedPrivateKey ← set extendedPrivateKey secretKeyBytes 0;
     extendedPrivateKey ← set extendedPrivateKey secretKeyBytes 32;
     extendedPrivateKey ← set extendedPrivateKey chainCodeBytes 64;
     let fullKeypair := new 128 in
     fullKeypair ← set fullKeypair extendedPrivateKey 0;
     fullKeypair ← set fullKeypair publicKeyBytes 96;
     Normal
       {| KeyPair.secretKey :=
            {| SecretKey.type := lit "priv";
               SecretKey.format := lit "hex";
               SecretKey.value := bytesToHex fullKeypair |};
          KeyPair.publicKey :=
            {| PublicKey.type := lit "pub";
               PublicKey.format := lit "hex";
               PublicKey.value := CryptoDerivative.publicKey derivative |} |})
    (λ error, Throw (JsError deriveFailure error))).

(** ** getPublicKeyFromSecretKey (lines 138-151) *)

(** The interface of [../crypto/kaspa] as this file uses it: the
    [PrivateKey] constructor, [Keypair.fromPrivateKey] and the [toString] of
    a key pair's public key.  Each receives only the values passed to it and
    either returns or throws. *)
Class KaspCrypto : Type := {
  PrivateKey : Type;
  Keypair : Type;
  PrivateKey_new : JsString → Completion PrivateKey;
  Keypair_fromPrivateKey : PrivateKey → Completion Keypair;
  Keypair_publicKey_toString : Keypair → Completion JsString
}.

Definition publicKeyFailure : JsString := lit "Failed to derive public key: ".

Definition getPublicKeyFromSecretKey `{KaspCrypto} (secretKey : SecretKey.t)
  : Promise PublicKey.t :=
  async (tryCatch
    (privKey ← PrivateKey_new (SecretKey.value secretKey);
     publicKeyBuffer ← Keypair_fromPrivateKey privKey;
     value ← Keypair_publicKey_toString publicKeyBuffer;
     Normal {| PublicKey.type := lit "pub";
               PublicKey.format := lit "hex";
               PublicKey.value := value |})
    (λ error, Throw (JsError publicKeyFailure error))).

(** ** signTransactionWithSecretKey (lines 160-165) *)

(** The body of the method is the comment [/* ... */]: nothing is computed
    and nothing is returned, so a call evaluates to [undefined] ([None])
    instead of a promise. *)
Definition signTransactionWithSecretKey {UnsignedTransaction SignedTransaction : Type}
  (transaction : UnsignedTransaction) (secretKey : SecretKey.t)
  : option (Promise SignedTransaction) :=
  None.

(** ** getDetailsFromTransaction (lines 175-180) *)

(** Its body is the same comment: a call returns [undefined]. *)
Definition getDetailsFromTransaction {Transaction AirGapTransaction : Type}
  (transaction : Transaction) (publicKey : PublicKey.t)
  : option (Promise (list AirGapTransaction)) :=
  None.

(** ** getMetadata (lines 32-58) and getCryptoConfiguration (lines 67-72) *)

Module ProtocolSymbol.
Record t : Type := mk { value : JsString; market : option JsString; asset : option JsString }.
End ProtocolSymbol.

Module ProtocolUnit.
Record t : Type := mk { symbol : ProtocolSymbol.t; decimals : Z }.
End ProtocolUnit.

Module ProtocolAccountMetadata.
Record t : Type := mk { standardDerivationPath : JsString }.
End ProtocolAccountMetadata.

Module ProtocolMetadata.
Record t : Type := mk {
  name : JsString;
  identifier : JsString;
  units : gmap JsString ProtocolUnit.t;
  mainUnit : JsString;
  account : ProtocolAccountMetadata.t
}.
End ProtocolMetadata.

Module CryptoConfiguration.
Record t : Type := mk { algorithm : JsString }.
End CryptoConfiguration.

Definition getMetadata : Promise ProtocolMetadata.t :=
  let mainUnit := lit "KAS" in
  let symbol :=
    {| ProtocolSymbol.value := mainUnit;
       ProtocolSymbol.market := Some (lit "kaspa-market");
       ProtocolSymbol.asset := Some (lit "kaspa-asset") |} in
  let accountMetadata :=
    {| ProtocolAccountMetadata.standardDerivationPath := lit "m/84'/0'/0'/0/0" |} in
  Resolved
    {| ProtocolMetadata.name := lit "My Protocol";
       ProtocolMetadata.identifier := lit "my-protocol";
       ProtocolMetadata.units :=
         {[ mainUnit := {| ProtocolUnit.symbol := symbol;
                           ProtocolUnit.decimals := 8 |} ]};
       ProtocolMetadata.mainUnit := mainUnit;
       ProtocolMetadata.account := accountMetadata |}.

Definition getCryptoConfiguration : Promise CryptoConfiguration.t :=
  async (Normal {| CryptoConfiguration.algorithm := lit "secp256k1" |}).

(** ** Calls through references *)

(** The host passes its objects by reference.  The heap holds them; a method
    call takes the heap and returns it with the settled promise.  The typed
    arrays of [getKeyPairFromDerivative] are local to one call, never
    aliased and never returned, and are therefore kept out of the heap. *)
Module Heap.

Abbreviation loc := positive.

Inductive object : Type :=
  | Derivative : CryptoDerivative.t → object
  | Secret : SecretKey.t → object.

Abbreviation t := (gmap loc object).

Definition Method (A : Type) : Type := t → t * A.

End Heap.

(** A reference that does not hold a derivative makes the first property
    access throw a TypeError inside the [try]. *)
Definition call_getKeyPairFromDerivative (derivative : Heap.loc)
  : Heap.Method (Promise KeyPair.t) := λ h,
  match h !! derivative with
  | Some (Heap.Derivative d) => (h, getKeyPairFromDerivative d)
  | _ => (h, Rejected (JsError deriveFailure TypeError))
  end.

Definition call_getPublicKeyFromSecretKey `{KaspCrypto} (secretKey : Heap.loc)
  : Heap.Method (Promise PublicKey.t) := λ h,
  match h !! secretKey with
  | Some (Heap.Secret k) => (h, getPublicKeyFromSecretKey k)
  | _ => (h, Rejected (JsError publicKeyFailure TypeError))
  end.

Definition call_getMetadata : Heap.Method (Promise ProtocolMetadata.t) :=
  λ h, (h, getMetadata).

Definition call_getCryptoConfiguration : Heap.Method (Promise CryptoConfiguration.t) :=
  λ h, (h, getCryptoConfiguration).

(** * Definitions used by the statements *)

(** ** The decoding loop, chunk by chunk *)

(** The two-unit chunks [str.substr(i, 2)] that have both units; an
    unpaired last unit forms no chunk. *)
Fixpoint chunks2 (str : JsString) : list JsString :=
  match str with
  | a :: b :: r => [a; b] :: chunks2 r
  | _ => []
  end.

(** The byte one chunk is stored as. *)
Definition chunkByte (chunk : JsString) : Z := ToUint8 (parseInt chunk 16).

(** ** The codec on bytes and on hex digits *)

(** The 256 bytes and the 22 hex digits, for checks run over all of them. *)
Definition allBytes : list Z := map Z.of_nat (seq 0 256).
Definition hexUnits : JsString := lit "0123456789abcdefABCDEF".

Definition isHexDigit (c : N) : bool := isRadixDigit 16 c.
Definition isLowerHexDigit (c : N) : bool :=
  (((48 <=? c) && (c <=? 57)) || ((97 <=? c) && (c <=? 102)))%N.

(** A valid hex string: an even number of units, all of them hex digits. *)
Definition validHex (str : JsString) : bool :=
  Nat.even (length str) && forallb isHexDigit str.

(** [lowercase(s)] of the round-trip law, as [toLowerCase] acts on ASCII:
    the letters A-Z move to a-z, every other unit stays. *)
Definition lowerUnit (c : N) : N :=
  if ((65 <=? c) && (c <=? 90))%N then (c + 32)%N else c.
Definition toLowerCase (str : JsString) : JsString := map lowerUnit str.

(** The checks run over all bytes and over all pairs of hex digits. *)
Definition byteChecks (b : Z) : bool :=
  (length (byteToHex b) =? 2)%nat
  && forallb isLowerHexDigit (byteToHex b)
  && (chunkByte (byteToHex b) =? b).

Definition pairCheck (a b : N) : bool :=
  bool_decide (byteToHex (chunkByte [a; b]) = [lowerUnit a; lowerUnit b]).

(** ** The assembled key pair *)

(** The buffer lines 105-113 build when every copy fits. *)
Definition assemble (sk cc pk : Uint8Array) : Uint8Array :=
  let extendedPrivateKey :=
    list_inserts 64 cc (list_inserts 32 sk (list_inserts 0 sk (new 96))) in
  list_inserts 96 pk (list_inserts 0 extendedPrivateKey (new 128)).

(** The object literal of lines 115-126 around a given buffer. *)
Definition keyPairOf (derivative : CryptoDerivative.t) (fullKeypair : Uint8Array)
  : KeyPair.t :=
  {| KeyPair.secretKey :=
       {| SecretKey.type := lit "priv";
          SecretKey.format := lit "hex";
          SecretKey.value := bytesToHex fullKeypair |};
     KeyPair.publicKey :=
       {| PublicKey.type := lit "pub";
          PublicKey.format := lit "hex";
          PublicKey.value := CryptoDerivative.publicKey derivative |} |}.

(** ** Inputs used below *)

(** [s.repeat(n)], the ["11"*32] of the examples. *)
Definition times (n : nat) (s : JsString) : JsString := concat (replicate n s).

(** A secp256k1 derivative: 32-byte secret key and chain code, 33-byte
    compressed public key. *)
Definition secp256k1Derivative : CryptoDerivative.t :=
  {| CryptoDerivative.secretKey := times 32 (lit "11");
     CryptoDerivative.chainCode := times 32 (lit "22");
     CryptoDerivative.publicKey := lit "03" ++ times 32 (lit "33") |}.

(** The same with a public key of 32 bytes. *)
Definition shortKeyDerivative : CryptoDerivative.t :=
  {| CryptoDerivative.secretKey := times 32 (lit "11");
     CryptoDerivative.chainCode := times 32 (lit "22");
     CryptoDerivative.publicKey := times 32 (lit "33") |}.

(** A secret key of 65 bytes next to fields of 32 bytes. *)
Definition longSecretDerivative : CryptoDerivative.t :=
  {| CryptoDerivative.secretKey := times 65 (lit "11");
     CryptoDerivative.chainCode := times 32 (lit "22");
     CryptoDerivative.publicKey := times 32 (lit "33") |}.

(** Fields that are not hex: a non-digit, an odd length, no digit at all. *)
Definition malformedDerivative : CryptoDerivative.t :=
  {| CryptoDerivative.secretKey := lit "1g";
     CryptoDerivative.chainCode := lit "abc";
     CryptoDerivative.publicKey := lit "zz" |}.

(** A stand-in for [../crypto/kaspa] that accepts every value and renders
    the public key as the string it was given. *)
Definition acceptAll : KaspCrypto :=
  {| PrivateKey := JsString;
     Keypair := JsString;
     PrivateKey_new := Normal;
     Keypair_fromPrivateKey := Normal;
     Keypair_publicKey_toString := Normal |}.

Definition encryptedKey : SecretKey.t :=
  {| SecretKey.type := lit "priv";
     SecretKey.format := lit "encrypted";
     SecretKey.value := times 32 (lit "11") |}.

Definition hexKey : SecretKey.t :=
  {| SecretKey.type := lit "priv";
     SecretKey.format := lit "hex";
     SecretKey.value := times 32 (lit "11") |}.

(** ** Reading a derivation path *)

Fixpoint splitOn (sep : N) (s : JsString) : list JsString :=
  match s with
  | [] => [[]]
  | c :: r =>
      if (c =? sep)%N then [] :: splitOn sep r
      else match splitOn sep r with
           | first :: others => (c :: first) :: others
           | [] => [[c]]
           end
  end.

(** One segment: a decimal index, hardened when an apostrophe follows. *)
Definition pathSegment (seg : JsString) : option (Z * bool) :=
  let hardened := bool_decide (last seg = Some 39%N) in
  let digits := if hardened then take (length seg - 1) seg else seg in
  if forallb (isRadixDigit 10) digits && negb (bool_decide (digits = []))
  then Some (digitsValue 10 digits, hardened) else None.

(** [m/purpose/coin/account/chain/index] as its list of segments. *)
Definition derivationPath (path : JsString) : option (list (Z * bool)) :=
  match splitOn 47 path with
  | [109%N] :: segs => mapM pathSegment segs
  | _ => None
  end.

(** ** The buffer byte by byte *)

(** The byte at offset [i] of the buffer of lines 105-113, read off the
    order of the copies: the secret key at 0 and again at 32, the chain code
    at 64 over whatever the second copy left there, the public key at 96;
    an offset no copy reaches keeps the zero of the allocation. *)
Definition layoutByte (sk cc pk : Uint8Array) (i : nat) : Z :=
  if (i <? 32)%nat then default 0 (sk !! i)
  else if (i <? 64)%nat then default 0 (sk !! (i - 32)%nat)
  else if (i <? 96)%nat then
    if (i - 64 <? length cc)%nat then default 0 (cc !! (i - 64)%nat)
    else default 0 (sk !! (i - 32)%nat)
  else default 0 (pk !! (i - 96)%nat).

(** A derivative with its three fields in lower case. *)
Definition lowerDerivative (derivative : CryptoDerivative.t) : CryptoDerivative.t :=
  {| CryptoDerivative.secretKey := toLowerCase (CryptoDerivative.secretKey derivative);
     CryptoDerivative.chainCode := toLowerCase (CryptoDerivative.chainCode derivative);
     CryptoDerivative.publicKey := toLowerCase (CryptoDerivative.publicKey derivative) |}.

(** Upper-case fields of 32 bytes each. *)
Definition upperCaseDerivative : CryptoDerivative.t :=
  {| CryptoDerivative.secretKey := times 32 (lit "AB");
     CryptoDerivative.chainCode := times 32 (lit "CD");
     CryptoDerivative.publicKey := times 32 (lit "EF") |}.

(** A secret key of 40 bytes and a chain code of 4: the second copy of the
    secret key reaches into the chain-code region. *)
Definition spillingDerivative : CryptoDerivative.t :=
  {| CryptoDerivative.secretKey := times 40 (lit "11");
     CryptoDerivative.chainCode := times 4 (lit "22");
     CryptoDerivative.publicKey := times 2 (lit "33") |}.

(** * Lemmas *)

(** ** The decoding loop *)

Lemma list_pair_ind {A} (P : list A → Prop) :
  P [] → (∀ a, P [a]) → (∀ a b r, P r → P (a :: b :: r)) → ∀ l, P l.
Proof.
  intros Hnil Hone Hstep.
  assert (both : ∀ l, P l ∧ ∀ a, P (a :: l)).
  { induction l as [|x l [IH1 IH2]]; split; auto. }
  intro l. apply both.
Qed.

Lemma length_chunks2 str : length (chunks2 str) = (length str / 2)%nat.
Proof.
  induction str as [| a | a b r IH] using list_pair_ind; try reflexivity.
  cbn [chunks2 length]. rewrite IH.
  change (S (S (length r))) with (1 * 2 + length r)%nat.
  rewrite Nat.div_add_l by lia. lia.
Qed.

Lemma substr_at_end (pre rest : JsString) n :
  substr (pre ++ rest) (length pre) n = take n rest.
Proof. unfold substr. by rewrite drop_app_length. Qed.

(** The invariant of the loop: with [i] units consumed and [i / 2] bytes
    stored, any fuel covering the remaining units finishes the decoding. *)
Lemma hexLoop_chunks fuel : ∀ (pre rest : JsString) (stored : Uint8Array),
  length pre = (2 * length stored)%nat →
  (length rest ≤ fuel)%nat →
  hexLoop fuel (pre ++ rest) (length pre)
          (stored ++ new (length rest / 2))
  = stored ++ map chunkByte (chunks2 rest).
Proof.
  induction fuel as [|fuel IH]; intros pre rest stored Hpre Hfuel.
  - destruct rest; [|simpl in Hfuel; lia]. reflexivity.
  - cbn [hexLoop]. rewrite length_app.
    destruct rest as [|a [|b r]].
    + rewrite Nat.add_0_r, Nat.ltb_irrefl. reflexivity.
    + cbn [length]. replace (length pre <? length pre + 1)%nat with true
        by (symmetry; apply Nat.ltb_lt; lia).
      change (new (1 / 2)) with (@nil Z). rewrite app_nil_r.
      unfold store. rewrite list_insert_ge.
      2:{ rewrite Hpre, Nat.mul_comm, Nat.div_mul by lia. lia. }
      cbn [chunks2 map]. rewrite app_nil_r.
      destruct fuel; cbn [hexLoop]; [reflexivity|].
      rewrite length_app. cbn [length].
      replace (length pre + 2 <? length pre + 1)%nat with false
        by (symmetry; apply Nat.ltb_ge; lia).
      reflexivity.
    + cbn [length] in *.
      replace (length pre <? length pre + S (S (length r)))%nat with true
        by (symmetry; apply Nat.ltb_lt; lia).
      rewrite substr_at_end. cbn [take chunks2 map].
      change (S (S (length r))) with (1 * 2 + length r)%nat.
      rewrite Nat.div_add_l by lia. cbn [Nat.add new replicate].
      unfold store.
      replace (length pre / 2)%nat with (length stored + 0)%nat.
      2:{ rewrite Hpre, Nat.mul_comm, Nat.div_mul by lia. lia. }
      rewrite insert_app_r. cbn [list_insert].
      specialize (IH (pre ++ [a; b]) r (stored ++ [chunkByte [a; b]])).
      rewrite !length_app in IH. cbn [length] in IH.
      rewrite <- !app_assoc in IH. cbn [app] in IH.
      apply IH; lia.
Qed.

Lemma hexToBytes_chunks str : hexToBytes str = map chunkByte (chunks2 str).
Proof.
  unfold hexToBytes.
  exact (hexLoop_chunks (length str) [] str [] eq_refl (le_n _)).
Qed.


Lemma length_hexToBytes str : length (hexToBytes str) = (length str / 2)%nat.
Proof. by rewrite hexToBytes_chunks, length_map, length_chunks2. Qed.

Lemma ToUint8_byte v : 0 ≤ ToUint8 v < 256.
Proof. destruct v; cbn; [apply Z.mod_pos_bound|]; lia. Qed.

Lemma wf_hexToBytes str : wf (hexToBytes str).
Proof.
  rewrite hexToBytes_chunks. unfold wf. apply Forall_map, Forall_true.
  intro c. apply ToUint8_byte.
Qed.

(** ** Bytes and hex digits *)

Lemma allBytes_complete b : 0 ≤ b < 256 → In b allBytes.
Proof.
  intro H. unfold allBytes. apply in_map_iff.
  exists (Z.to_nat b). split; [lia|]. apply in_seq. lia.
Qed.

Lemma hexUnits_complete c : isHexDigit c = true → In c hexUnits.
Proof.
  unfold isHexDigit, isRadixDigit, digitValue.
  destruct ((48 <=? c) && (c <=? 57))%N eqn:E1;
    [|destruct ((97 <=? c) && (c <=? 122))%N eqn:E2;
      [|destruct ((65 <=? c) && (c <=? 90))%N eqn:E3]];
    intro H; try discriminate;
    apply Z.ltb_lt in H;
    repeat match goal with
           | E : (_ && _)%bool = true |- _ => apply andb_prop in E; destruct E
           | E : (_ <=? _)%N = true |- _ => apply N.leb_le in E
           end;
    cbn; lia.
Qed.

Lemma byteChecks_all : forallb byteChecks allBytes = true.
Proof. vm_compute. reflexivity. Qed.

Lemma byteToHex_byte b :
  0 ≤ b < 256 →
  length (byteToHex b) = 2%nat
  ∧ forallb isLowerHexDigit (byteToHex b) = true
  ∧ chunkByte (byteToHex b) = b.
Proof.
  intro H. apply allBytes_complete in H.
  pose proof (proj1 (forallb_forall _ _) byteChecks_all b H) as C.
  unfold byteChecks in C.
  apply andb_prop in C as [C C3]. apply andb_prop in C as [C1 C2].
  apply Nat.eqb_eq in C1. apply Z.eqb_eq in C3. auto.
Qed.

Lemma pairCheck_all :
  forallb (λ a, forallb (pairCheck a) hexUnits) hexUnits = true.
Proof. vm_compute. reflexivity. Qed.

Lemma byteToHex_chunk a b :
  isHexDigit a = true → isHexDigit b = true →
  byteToHex (chunkByte [a; b]) = [lowerUnit a; lowerUnit b].
Proof.
  intros Ha Hb. apply hexUnits_complete in Ha, Hb.
  pose proof (proj1 (forallb_forall _ _) pairCheck_all a Ha) as C.
  pose proof (proj1 (forallb_forall _ _) C b Hb) as C'.
  unfold pairCheck in C'. by apply bool_decide_eq_true in C'.
Qed.

Lemma bytesToHex_cons b bytes :
  bytesToHex (b :: bytes) = byteToHex b ++ bytesToHex bytes.
Proof. reflexivity. Qed.

Lemma hexToBytes_pair a b rest :
  hexToBytes (a :: b :: rest) = chunkByte [a; b] :: hexToBytes rest.
Proof. by rewrite !hexToBytes_chunks. Qed.

Lemma hexToBytes_bytesToHex bytes : wf bytes → hexToBytes (bytesToHex bytes) = bytes.
Proof.
  induction 1 as [|b bytes Hb _ IH]; [reflexivity|].
  rewrite bytesToHex_cons.
  destruct (byteToHex_byte b Hb) as (Hlen & _ & Hval).
  destruct (byteToHex b) as [|c1 [|c2 [|]]]; try discriminate.
  cbn [app]. rewrite hexToBytes_pair, Hval, IH. reflexivity.
Qed.

Lemma bytesToHex_hexToBytes str :
  validHex str = true → bytesToHex (hexToBytes str) = toLowerCase str.
Proof.
  unfold validHex.
  induction str as [| a | a b r IH] using list_pair_ind; intro H.
  - reflexivity.
  - discriminate.
  - apply andb_prop in H as [Hev Hall]. cbn [length Nat.even] in Hev.
    cbn [forallb] in Hall.
    apply andb_prop in Hall as [Ha Hall]. apply andb_prop in Hall as [Hb Hall].
    rewrite hexToBytes_pair, bytesToHex_cons, byteToHex_chunk by done.
    rewrite IH by (by rewrite Hev, Hall). reflexivity.
Qed.

Lemma length_bytesToHex bytes :
  wf bytes → length (bytesToHex bytes) = (2 * length bytes)%nat.
Proof.
  induction 1 as [|b bytes Hb _ IH]; [reflexivity|].
  rewrite bytesToHex_cons, length_app, IH.
  destruct (byteToHex_byte b Hb) as (-> & _). cbn [length]. lia.
Qed.

Lemma lowerHex_bytesToHex bytes :
  wf bytes → forallb isLowerHexDigit (bytesToHex bytes) = true.
Proof.
  induction 1 as [|b bytes Hb _ IH]; [reflexivity|].
  rewrite bytesToHex_cons, forallb_app, IH.
  destruct (byteToHex_byte b Hb) as (_ & -> & _). reflexivity.
Qed.

(** ** Copies and the assembled buffer *)

Lemma length_new n : length (new n) = n.
Proof. apply length_replicate. Qed.

Lemma set_fits target source offset :
  (length source + offset ≤ length target)%nat →
  set target source offset = Normal (list_inserts offset source target).
Proof.
  intro H. unfold set.
  by replace (length target <? length source + offset)%nat with false
    by (symmetry; apply Nat.ltb_ge; lia).
Qed.

Lemma set_overrun target source offset :
  (length target < length source + offset)%nat →
  set target source offset = Throw RangeError.
Proof.
  intro H. unfold set.
  by replace (length target <? length source + offset)%nat with true
    by (symmetry; apply Nat.ltb_lt; lia).
Qed.

Lemma bind_Normal {A B} (v : A) (k : A → Completion B) : (Normal v ≫= k) = k v.
Proof. reflexivity. Qed.

Lemma bind_Throw {A B} e (k : A → Completion B) : (Throw e ≫= k) = Throw e.
Proof. reflexivity. Qed.

Ltac copy_fits :=
  rewrite set_fits by (rewrite ?length_inserts, ?length_new; lia);
  rewrite bind_Normal.

Ltac copy_overruns :=
  rewrite set_overrun by (rewrite ?length_inserts, ?length_new; lia);
  rewrite ?bind_Throw; reflexivity.

(** Every copy fits: the promise resolves with the assembled buffer. *)
Lemma getKeyPairFromDerivative_fits derivative :
  let sk := hexToBytes (CryptoDerivative.secretKey derivative) in
  let cc := hexToBytes (CryptoDerivative.chainCode derivative) in
  let pk := hexToBytes (CryptoDerivative.publicKey derivative) in
  (length sk ≤ 64)%nat → (length cc ≤ 32)%nat → (length pk ≤ 32)%nat →
  getKeyPairFromDerivative derivative
  = Resolved (keyPairOf derivative (assemble sk cc pk)).
Proof.
  intros sk cc pk Hsk Hcc Hpk. unfold getKeyPairFromDerivative.
  fold sk cc pk. do 5 copy_fits. reflexivity.
Qed.

(** Some copy overruns its target: the RangeError is caught and rethrown. *)
Lemma getKeyPairFromDerivative_overrun derivative :
  let sk := hexToBytes (CryptoDerivative.secretKey derivative) in
  let cc := hexToBytes (CryptoDerivative.chainCode derivative) in
  let pk := hexToBytes (CryptoDerivative.publicKey derivative) in
  (64 < length sk ∨ 32 < length cc ∨ 32 < length pk)%nat →
  getKeyPairFromDerivative derivative
  = Rejected (JsError deriveFailure RangeError).
Proof.
  intros sk cc pk H. unfold getKeyPairFromDerivative. fold sk cc pk.
  destruct (decide (96 < length sk)%nat); [copy_overruns|copy_fits].
  destruct (decide (64 < length sk)%nat); [copy_overruns|copy_fits].
  destruct (decide (32 < length cc)%nat); [copy_overruns|copy_fits].
  copy_fits. copy_overruns.
Qed.

(** The only rejection there is. *)
Lemma getKeyPairFromDerivative_rejected derivative :
  rejected (getKeyPairFromDerivative derivative) →
  getKeyPairFromDerivative derivative
  = Rejected (JsError deriveFailure RangeError).
Proof.
  intros [e He].
  destruct (decide (length (hexToBytes (CryptoDerivative.secretKey derivative)) ≤ 64)%nat);
  [destruct (decide (length (hexToBytes (CryptoDerivative.chainCode derivative)) ≤ 32)%nat);
   [destruct (decide (length (hexToBytes (CryptoDerivative.publicKey derivative)) ≤ 32)%nat)|]|];
  try (apply getKeyPairFromDerivative_overrun; lia).
  rewrite getKeyPairFromDerivative_fits in He by done. discriminate.
Qed.

Lemma length_assemble sk cc pk : length (assemble sk cc pk) = 128%nat.
Proof. unfold assemble. by rewrite !length_inserts, length_new. Qed.

(** The public key sits at offset 96 ... *)
Lemma assemble_publicKey sk cc pk j :
  (length pk ≤ 32)%nat → (j < length pk)%nat →
  assemble sk cc pk !! (96 + j)%nat = pk !! j.
Proof.
  intros Hpk Hj. unfold assemble.
  rewrite list_lookup_inserts by (rewrite ?length_inserts, ?length_new; lia).
  f_equal. lia.
Qed.

(** ... and what it leaves of the last 32 bytes stays zero. *)
Lemma assemble_padding sk cc pk i :
  (96 + length pk ≤ i)%nat → (i < 128)%nat →
  assemble sk cc pk !! i = Some 0.
Proof.
  intros Hlo Hhi. unfold assemble.
  rewrite list_lookup_inserts_ge by lia.
  rewrite list_lookup_inserts_ge by (rewrite !length_inserts, length_new; lia).
  by apply lookup_replicate_2.
Qed.

Lemma inserts_after {A} (l1 l2 k : list A) n :
  n = length l1 → list_inserts n k (l1 ++ l2) = l1 ++ list_inserts 0 k l2.
Proof.
  intros ->. rewrite <- (Nat.add_0_r (length l1)) at 1.
  apply list_inserts_app_r.
Qed.

Lemma inserts_whole {A} (k l : list A) :
  length k = length l → list_inserts 0 k l = k.
Proof.
  intro H. rewrite <- (app_nil_r l), list_inserts_0_r by done.
  apply app_nil_r.
Qed.

Lemma wf_new n : wf (new n).
Proof. apply Forall_replicate. lia. Qed.

Lemma wf_inserts i k l : wf k → wf l → wf (list_inserts i k l).
Proof.
  unfold wf. rewrite !Forall_lookup. intros Hk Hl j y H.
  apply list_lookup_inserts_Some in H as [[_ H]|(_ & _ & H)]; eauto.
Qed.

Lemma wf_assemble sk cc pk : wf sk → wf cc → wf pk → wf (assemble sk cc pk).
Proof.
  intros Hsk Hcc Hpk. unfold assemble.
  repeat (apply wf_inserts; try assumption); apply wf_new.
Qed.

(** With three 32-byte fields the buffer is the four fields in a row. *)
Lemma assemble_32 sk cc pk :
  length sk = 32%nat → length cc = 32%nat → length pk = 32%nat →
  assemble sk cc pk = sk ++ sk ++ cc ++ pk.
Proof.
  intros Hsk Hcc Hpk.
  assert (E1 : list_inserts 0 sk (new 96) = sk ++ new 64).
  { change (new 96) with (new 32 ++ new 64).
    apply list_inserts_0_r. by rewrite length_new. }
  assert (E2 : list_inserts 32 sk (sk ++ new 64) = sk ++ sk ++ new 32).
  { rewrite inserts_after by lia.
    change (new 64) with (new 32 ++ new 32).
    by rewrite list_inserts_0_r by (by rewrite length_new). }
  assert (E3 : list_inserts 64 cc (sk ++ sk ++ new 32) = sk ++ sk ++ cc).
  { rewrite (app_assoc sk sk), inserts_after by (rewrite length_app; lia).
    rewrite inserts_whole by (by rewrite length_new).
    by rewrite <- app_assoc. }
  assert (E4 : list_inserts 0 (sk ++ sk ++ cc) (new 128)
               = (sk ++ sk ++ cc) ++ new 32).
  { change (new 128) with (new 96 ++ new 32).
    apply list_inserts_0_r. rewrite !length_app, length_new. lia. }
  assert (E5 : list_inserts 96 pk ((sk ++ sk ++ cc) ++ new 32)
               = (sk ++ sk ++ cc) ++ pk).
  { rewrite inserts_after by (rewrite !length_app; lia).
    by rewrite inserts_whole by (by rewrite length_new). }
  unfold assemble. rewrite E1, E2, E3, E4, E5. by rewrite <- !app_assoc.
Qed.

(** * Properties *)

(** ** Key-pair derivation: layout and lengths *)

(** C1 (what the code does at the input of the claim).  On the derivative
    of the example, secret key 32 bytes of 0x11, chain code 32 bytes of
    0x22 and public key 0x03 followed by 32 bytes of 0x33, the three fields
    decode to 32, 32 and 33 bytes and the promise is rejected: copying the
    33 bytes at offset 96 of the 128-byte buffer raises a RangeError, which
    the [catch] rethrows.  No key pair is returned. *)
Theorem getKeyPairFromDerivative_secp256k1_rejected :
  length (hexToBytes (CryptoDerivative.secretKey secp256k1Derivative)) = 32%nat
  ∧ length (hexToBytes (CryptoDerivative.chainCode secp256k1Derivative)) = 32%nat
  ∧ length (hexToBytes (CryptoDerivative.publicKey secp256k1Derivative)) = 33%nat
  ∧ getKeyPairFromDerivative secp256k1Derivative
    = Rejected (JsError deriveFailure RangeError).
Proof.
  split; [|split; [|split]]; try (rewrite length_hexToBytes; reflexivity).
  apply getKeyPairFromDerivative_overrun. right; right.
  rewrite length_hexToBytes. cbn. lia.
Qed.

(** With a public key of 32 bytes the layout is the one described: the
    secret key twice, the chain code, the public key, 256 hex digits in
    all, and the public key of the pair is the input string. *)
Lemma getKeyPairFromDerivative_32_32_32 derivative :
  let sk := hexToBytes (CryptoDerivative.secretKey derivative) in
  let cc := hexToBytes (CryptoDerivative.chainCode derivative) in
  let pk := hexToBytes (CryptoDerivative.publicKey derivative) in
  length sk = 32%nat → length cc = 32%nat → length pk = 32%nat →
  getKeyPairFromDerivative derivative
  = Resolved (keyPairOf derivative (sk ++ sk ++ cc ++ pk)).
Proof.
  intros sk cc pk Hsk Hcc Hpk.
  rewrite getKeyPairFromDerivative_fits by (fold sk cc pk; lia).
  fold sk cc pk. by rewrite assemble_32.
Qed.

(** C2 (counterexample).  A derivative whose public key decodes to 32
    bytes, not 33, is not rejected. *)
Lemma short_public_key_accepted :
  length (hexToBytes (CryptoDerivative.publicKey shortKeyDerivative)) ≠ 33%nat
  ∧ ¬ rejected (getKeyPairFromDerivative shortKeyDerivative).
Proof.
  split.
  - rewrite length_hexToBytes. cbn. lia.
  - rewrite getKeyPairFromDerivative_fits
      by (rewrite length_hexToBytes; cbn; lia).
    intros [e He]. discriminate.
Qed.

(** C2 (amended).  The lengths are never validated and no length error of
    its own exists.  For a derivative whose public key decodes to at most 32
    bytes, the call is rejected exactly when the decoded secret key is
    longer than 64 bytes or the decoded chain code longer than 32 bytes,
    and a rejection is always the generic error that wraps the RangeError
    of the typed-array copy; every other length is assembled. *)
Theorem getKeyPairFromDerivative_length_rejection derivative :
  let sk := hexToBytes (CryptoDerivative.secretKey derivative) in
  let cc := hexToBytes (CryptoDerivative.chainCode derivative) in
  let pk := hexToBytes (CryptoDerivative.publicKey derivative) in
  (length pk ≤ 32)%nat →
  (rejected (getKeyPairFromDerivative derivative)
   ↔ (64 < length sk ∨ 32 < length cc)%nat)
  ∧ (∀ e, getKeyPairFromDerivative derivative = Rejected e
          → e = JsError deriveFailure RangeError)
  ∧ ((length sk ≤ 64 ∧ length cc ≤ 32)%nat
     → getKeyPairFromDerivative derivative
       = Resolved (keyPairOf derivative (assemble sk cc pk))).
Proof.
  intros sk cc pk Hpk. split; [split|split].
  - intros Hrej.
    destruct (decide (64 < length sk ∨ 32 < length cc)%nat) as [|Hfit]; [done|].
    destruct Hrej as [e He].
    rewrite getKeyPairFromDerivative_fits in He by (fold sk cc pk; lia).
    discriminate.
  - intros Hlong. exists (JsError deriveFailure RangeError).
    apply getKeyPairFromDerivative_overrun. fold sk cc. lia.
  - intros e He.
    assert (Hrej : rejected (getKeyPairFromDerivative derivative)) by by exists e.
    apply getKeyPairFromDerivative_rejected in Hrej. congruence.
  - intros [Hsk Hcc]. by apply getKeyPairFromDerivative_fits.
Qed.

Lemma getKeyPairFromDerivative_length_rejection_witness :
  (rejected (getKeyPairFromDerivative longSecretDerivative)
   ↔ (64 < length (hexToBytes (CryptoDerivative.secretKey longSecretDerivative))
      ∨ 32 < length (hexToBytes (CryptoDerivative.chainCode longSecretDerivative)))%nat)
  ∧ (∀ e, getKeyPairFromDerivative longSecretDerivative = Rejected e
          → e = JsError deriveFailure RangeError).
Proof.
  destruct (getKeyPairFromDerivative_length_rejection longSecretDerivative)
    as (H1 & H2 & _).
  - rewrite length_hexToBytes. cbn. lia.
  - exact (conj H1 H2).
Defined.

(** C9 (counterexample).  Three even-length hex fields and a public key of
    32 bytes, yet the call is rejected: the secret key has 65 bytes and its
    second copy, at offset 32, does not fit the 96-byte buffer. *)
Lemma long_secret_key_rejected :
  validHex (CryptoDerivative.secretKey longSecretDerivative) = true
  ∧ validHex (CryptoDerivative.chainCode longSecretDerivative) = true
  ∧ validHex (CryptoDerivative.publicKey longSecretDerivative) = true
  ∧ (length (hexToBytes (CryptoDerivative.publicKey longSecretDerivative)) ≤ 32)%nat
  ∧ ¬ fulfilled (getKeyPairFromDerivative longSecretDerivative).
Proof.
  split; [|split; [|split; [|split]]].
  - vm_compute. reflexivity.
  - vm_compute. reflexivity.
  - vm_compute. reflexivity.
  - rewrite length_hexToBytes. cbn. lia.
  - rewrite getKeyPairFromDerivative_overrun
      by (left; rewrite length_hexToBytes; cbn; lia).
    intros [v Hv]. discriminate.
Qed.

(** C9 (amended).  For every derivative whose three fields are even-length
    hex strings, whose decoded public key is at most 32 bytes, whose decoded
    secret key is at most 64 bytes and whose decoded chain code is at most
    32 bytes, the call succeeds: the secret key of the pair is tagged
    priv/hex and encodes a 128-byte buffer that holds the decoded public key
    from offset 96 on and zeros from there up to offset 128; the public key
    of the pair is the input string. *)
Theorem getKeyPairFromDerivative_short_public_key derivative :
  let sk := hexToBytes (CryptoDerivative.secretKey derivative) in
  let cc := hexToBytes (CryptoDerivative.chainCode derivative) in
  let pk := hexToBytes (CryptoDerivative.publicKey derivative) in
  validHex (CryptoDerivative.secretKey derivative) = true →
  validHex (CryptoDerivative.chainCode derivative) = true →
  validHex (CryptoDerivative.publicKey derivative) = true →
  (length pk ≤ 32)%nat → (length sk ≤ 64)%nat → (length cc ≤ 32)%nat →
  ∃ fullKeypair : Uint8Array,
    getKeyPairFromDerivative derivative
    = Resolved
        {| KeyPair.secretKey :=
             {| SecretKey.type := lit "priv";
                SecretKey.format := lit "hex";
                SecretKey.value := bytesToHex fullKeypair |};
           KeyPair.publicKey :=
             {| PublicKey.type := lit "pub";
                PublicKey.format := lit "hex";
                PublicKey.value := CryptoDerivative.publicKey derivative |} |}
    ∧ length fullKeypair = 128%nat
    ∧ wf fullKeypair
    ∧ hexToBytes (bytesToHex fullKeypair) = fullKeypair
    ∧ (2 * length pk = length (CryptoDerivative.publicKey derivative))%nat
    ∧ (∀ j, (j < length pk)%nat → fullKeypair !! (96 + j)%nat = pk !! j)
    ∧ (∀ i, (96 + length pk ≤ i)%nat → (i < 128)%nat → fullKeypair !! i = Some 0).
Proof.
  intros sk cc pk _ _ Hhex Hpk Hsk Hcc.
  assert (Hwf : wf (assemble sk cc pk))
    by (apply wf_assemble; apply wf_hexToBytes).
  exists (assemble sk cc pk).
  split; [|split; [|split; [|split; [|split; [|split]]]]].
  - by apply getKeyPairFromDerivative_fits.
  - apply length_assemble.
  - exact Hwf.
  - by apply hexToBytes_bytesToHex.
  - unfold pk. rewrite length_hexToBytes.
    unfold validHex in Hhex. apply andb_prop in Hhex as [Hev _].
    apply Nat.even_spec in Hev as [k ->].
    rewrite (Nat.mul_comm 2 k), Nat.div_mul by lia. lia.
  - intros j Hj. by apply assemble_publicKey.
  - intros i Hlo Hhi. by apply assemble_padding.
Qed.

Lemma getKeyPairFromDerivative_short_public_key_witness :
  ∃ fullKeypair : Uint8Array,
    getKeyPairFromDerivative shortKeyDerivative
    = Resolved (keyPairOf shortKeyDerivative fullKeypair)
    ∧ length fullKeypair = 128%nat.
Proof.
  destruct (getKeyPairFromDerivative_short_public_key shortKeyDerivative)
    as (buf & H1 & H2 & _).
  - vm_compute. reflexivity.
  - vm_compute. reflexivity.
  - vm_compute. reflexivity.
  - rewrite length_hexToBytes. cbn. lia.
  - rewrite length_hexToBytes. cbn. lia.
  - rewrite length_hexToBytes. cbn. lia.
  - exists buf. exact (conj H1 H2).
Defined.

(** ** The byte codec *)

(** C3 (counterexample).  ["1g"] holds a unit that is no hex digit and
    ["abc"] has odd length; both decode to a byte sequence, and a derivative
    made of such fields is turned into a key pair. *)
Lemma malformed_hex_decodes :
  validHex (lit "1g") = false ∧ hexToBytes (lit "1g") = [1]
  ∧ validHex (lit "abc") = false ∧ hexToBytes (lit "abc") = [171]
  ∧ fulfilled (getKeyPairFromDerivative malformedDerivative).
Proof.
  split; [|split; [|split; [|split]]]; try reflexivity.
  eexists. vm_compute. reflexivity.
Qed.

(** C3 (amended).  The decoding never fails and knows no encoding error.
    For every string it yields exactly floor(length / 2) bytes; byte k is
    [parseInt] of the k-th two-unit chunk as a [Uint8Array] stores it (NaN
    as 0, any other value modulo 256), and an unpaired last unit is
    ignored. *)
Theorem hexToBytes_total str :
  length (hexToBytes str) = (length str / 2)%nat
  ∧ wf (hexToBytes str)
  ∧ hexToBytes str = map (λ chunk, ToUint8 (parseInt chunk 16)) (chunks2 str).
Proof.
  split; [|split].
  - apply length_hexToBytes.
  - apply wf_hexToBytes.
  - apply hexToBytes_chunks.
Qed.

(** C5.  Round trip of the codec: decoding the encoding of a byte sequence
    gives the bytes back, the encoding having two lowercase hex digits per
    byte; and encoding the decoding of a valid hex string (even length, hex
    digits only) gives the string in lower case. *)
Theorem codec_round_trip (bytes : Uint8Array) (str : JsString) :
  wf bytes → validHex str = true →
  hexToBytes (bytesToHex bytes) = bytes
  ∧ length (bytesToHex bytes) = (2 * length bytes)%nat
  ∧ forallb isLowerHexDigit (bytesToHex bytes) = true
  ∧ bytesToHex (hexToBytes str) = toLowerCase str.
Proof.
  intros Hwf Hhex. split; [|split; [|split]].
  - by apply hexToBytes_bytesToHex.
  - by apply length_bytesToHex.
  - by apply lowerHex_bytesToHex.
  - by apply bytesToHex_hexToBytes.
Qed.

Lemma codec_round_trip_witness :
  hexToBytes (bytesToHex [0; 9; 171; 255]) = [0; 9; 171; 255]
  ∧ bytesToHex (hexToBytes (lit "0aB9Ff")) = lit "0ab9ff".
Proof.
  destruct (codec_round_trip [0; 9; 171; 255] (lit "0aB9Ff")) as (H1 & _ & _ & H2).
  - unfold wf. repeat (apply Forall_cons_2; [lia|]). apply Forall_nil_2.
  - reflexivity.
  - exact (conj H1 H2).
Defined.

(** ** The public key of a secret key *)

(** C4 (counterexample).  A secret key whose format tag is ["encrypted"] is
    not rejected: with a library that accepts the value, the promise
    resolves. *)
Lemma encrypted_format_accepted :
  SecretKey.format encryptedKey ≠ lit "hex"
  ∧ @getPublicKeyFromSecretKey acceptAll encryptedKey
    = Resolved {| PublicKey.type := lit "pub";
                  PublicKey.format := lit "hex";
                  PublicKey.value := SecretKey.value encryptedKey |}.
Proof. split; [discriminate|reflexivity]. Qed.

(** C4 (amended).  The format tag of the secret key is never read: two
    secret keys with the same value give the same result whatever their
    format and type tags, the value going to the library's [PrivateKey]
    constructor as it is.  There is no encoding error of its own: every
    rejection is the generic error that wraps what the library threw. *)
Theorem getPublicKeyFromSecretKey_ignores_format
  (lib : KaspCrypto) (secretKey secretKey' : SecretKey.t) :
  SecretKey.value secretKey = SecretKey.value secretKey' →
  getPublicKeyFromSecretKey secretKey = getPublicKeyFromSecretKey secretKey'
  ∧ (∀ e, getPublicKeyFromSecretKey secretKey = Rejected e
          → ∃ cause, e = JsError publicKeyFailure cause).
Proof.
  intro Hvalue. split.
  - unfold getPublicKeyFromSecretKey. by rewrite Hvalue.
  - unfold getPublicKeyFromSecretKey. intros e.
    destruct (PrivateKey_new (SecretKey.value secretKey)) as [privKey|e1];
      [cbn [mbind Completion_bind]|].
    1: destruct (Keypair_fromPrivateKey privKey) as [publicKeyBuffer|e2];
      [cbn [mbind Completion_bind]|].
    1: destruct (Keypair_publicKey_toString publicKeyBuffer) as [value|e3].
    all: cbn; intro H; inversion H; eauto.
Qed.

Lemma getPublicKeyFromSecretKey_ignores_format_witness :
  @getPublicKeyFromSecretKey acceptAll encryptedKey
  = @getPublicKeyFromSecretKey acceptAll hexKey.
Proof.
  destruct (getPublicKeyFromSecretKey_ignores_format acceptAll encryptedKey hexKey)
    as [H _].
  - reflexivity.
  - exact H.
Defined.

(** ** Signing *)

(** C7 (what the code does).  The method has no body: for every transaction
    and every secret key a call returns [undefined], so there is no signed
    transaction and no signature to verify. *)
Theorem signTransactionWithSecretKey_undefined
  (UnsignedTransaction SignedTransaction : Type)
  (transaction : UnsignedTransaction) (secretKey : SecretKey.t) :
  @signTransactionWithSecretKey UnsignedTransaction SignedTransaction
    transaction secretKey = None.
Proof. reflexivity. Qed.

(** ** Descriptors *)

(** C8.  [getMetadata] resolves to one fixed descriptor, whatever the heap
    the call finds and leaving it as it was: its main unit has 8 decimals
    and its standard derivation path is m/84'/0'/0'/0/0, that is purpose 84,
    coin 0 and account 0, all hardened, then chain 0 (external) and index 0.
    [getCryptoConfiguration] likewise resolves to the algorithm
    secp256k1. *)
Theorem descriptors_constant :
  ∃ (metadata : ProtocolMetadata.t) (unit : ProtocolUnit.t),
    (∀ h : Heap.t, call_getMetadata h = (h, Resolved metadata))
    ∧ ProtocolMetadata.units metadata !! ProtocolMetadata.mainUnit metadata
      = Some unit
    ∧ ProtocolUnit.decimals unit = 8
    ∧ ProtocolAccountMetadata.standardDerivationPath
        (ProtocolMetadata.account metadata) = lit "m/84'/0'/0'/0/0"
    ∧ derivationPath
        (ProtocolAccountMetadata.standardDerivationPath
           (ProtocolMetadata.account metadata))
      = Some [(84, true); (0, true); (0, true); (0, false); (0, false)]
    ∧ (∀ h : Heap.t,
         call_getCryptoConfiguration h
         = (h, Resolved {| CryptoConfiguration.algorithm := lit "secp256k1" |})).
Proof.
  eexists _, _. split; [|split; [|split; [|split; [|split]]]].
  - intro h. unfold call_getMetadata, getMetadata. reflexivity.
  - cbn [ProtocolMetadata.units ProtocolMetadata.mainUnit].
    apply lookup_singleton_eq.
  - reflexivity.
  - reflexivity.
  - vm_compute. reflexivity.
  - intro h. reflexivity.
Qed.

(** ** Calls: no state, no write *)

(** C6.  The result of [getKeyPairFromDerivative] is a function of the
    contents of the derivative alone: a second call through the same
    reference settles to the same promise as the first, the heap is the same
    after the calls as before, and a call made in any other heap through
    any reference to a derivative with the same fields settles to the same
    promise again. *)
Theorem call_getKeyPairFromDerivative_deterministic
  (h h' : Heap.t) (l l' : Heap.loc) (d : CryptoDerivative.t) :
  h !! l = Some (Heap.Derivative d) →
  h' !! l' = Some (Heap.Derivative d) →
  let first := call_getKeyPairFromDerivative l h in
  let second := call_getKeyPairFromDerivative l first.1 in
  second.2 = first.2
  ∧ second.1 = h
  ∧ (call_getKeyPairFromDerivative l' h').2 = first.2
  ∧ first.2 = getKeyPairFromDerivative d.
Proof.
  intros Hl Hl'. unfold call_getKeyPairFromDerivative.
  rewrite Hl, Hl'. cbn. rewrite Hl. cbn. auto.
Qed.

Lemma call_getKeyPairFromDerivative_deterministic_witness :
  (call_getKeyPairFromDerivative 1
     (call_getKeyPairFromDerivative 1
        {[ 1%positive := Heap.Derivative shortKeyDerivative ]}).1).2
  = (call_getKeyPairFromDerivative 1
       {[ 1%positive := Heap.Derivative shortKeyDerivative ]}).2.
Proof.
  destruct (call_getKeyPairFromDerivative_deterministic
              {[ 1%positive := Heap.Derivative shortKeyDerivative ]}
              {[ 2%positive := Heap.Derivative shortKeyDerivative ]}
              1 2 shortKeyDerivative) as (H & _).
  - apply lookup_singleton_eq.
  - apply lookup_singleton_eq.
  - exact H.
Defined.

(** C10.  Neither [getKeyPairFromDerivative] nor
    [getPublicKeyFromSecretKey] writes to an object of the caller: after a
    call, resolved or rejected, every reference holds what it held before,
    the argument with its fields included. *)
Theorem calls_leave_inputs_unchanged
  (lib : KaspCrypto) (h : Heap.t) (argument : Heap.loc) :
  (∀ l, (call_getKeyPairFromDerivative argument h).1 !! l = h !! l)
  ∧ (∀ l, (call_getPublicKeyFromSecretKey argument h).1 !! l = h !! l).
Proof.
  unfold call_getKeyPairFromDerivative, call_getPublicKeyFromSecretKey.
  split; intro l; destruct (h !! argument) as [[d|k]|]; reflexivity.
Qed.


(** * Further properties of the code *)

(** ** Decoding and encoding compose *)

Lemma bytesToHex_app a b : bytesToHex (a ++ b) = bytesToHex a ++ bytesToHex b.
Proof. unfold bytesToHex, join_empty. by rewrite map_app, concat_app. Qed.

Lemma chunks2_app a b :
  Nat.even (length a) = true → chunks2 (a ++ b) = chunks2 a ++ chunks2 b.
Proof.
  induction a as [| x | x y r IH] using list_pair_ind; intro H.
  - reflexivity.
  - discriminate.
  - cbn [app chunks2]. by rewrite IH.
Qed.

(** X2.  Decoding splits at every even offset, and encoding at every offset:
    the fields of a concatenated hex string decode independently. *)
Theorem hexToBytes_app (a b : JsString) (x y : Uint8Array) :
  Nat.even (length a) = true →
  hexToBytes (a ++ b) = hexToBytes a ++ hexToBytes b
  ∧ bytesToHex (x ++ y) = bytesToHex x ++ bytesToHex y.
Proof.
  intro H. split; [|apply bytesToHex_app].
  by rewrite !hexToBytes_chunks, chunks2_app, map_app.
Qed.

Lemma hexToBytes_app_witness :
  hexToBytes (lit "0a" ++ lit "ffz") = hexToBytes (lit "0a") ++ hexToBytes (lit "ffz").
Proof.
  destruct (hexToBytes_app (lit "0a") (lit "ffz") [] []) as [H _].
  - reflexivity.
  - exact H.
Defined.

Lemma lowerHex_isHex str :
  forallb isLowerHexDigit str = true → forallb isHexDigit str = true.
Proof.
  induction str as [|c r IH]; [done|]. cbn [forallb]. intro H.
  apply andb_prop in H as [Hc Hr]. rewrite (IH Hr), andb_true_r.
  unfold isLowerHexDigit in Hc. unfold isHexDigit, isRadixDigit, digitValue.
  apply orb_prop in Hc as [Hc|Hc]; apply andb_prop in Hc as [H1 H2];
    apply N.leb_le in H1, H2.
  - replace ((48 <=? c) && (c <=? 57))%N with true
      by (symmetry; apply andb_true_intro; split; apply N.leb_le; lia).
    apply Z.ltb_lt. lia.
  - replace ((48 <=? c) && (c <=? 57))%N with false
      by (symmetry; apply andb_false_intro2, N.leb_gt; lia).
    replace ((97 <=? c) && (c <=? 122))%N with true
      by (symmetry; apply andb_true_intro; split; apply N.leb_le; lia).
    apply Z.ltb_lt. lia.
Qed.

(** X3.  Decoding then encoding is a normalisation defined on every string: its
    result is a valid hex string in lower case, it is a fixed point of the
    normalisation, and it decodes to the same bytes as the string itself. *)
Theorem codec_normalises (str : JsString) :
  let canonical := bytesToHex (hexToBytes str) in
  validHex canonical = true
  ∧ toLowerCase canonical = canonical
  ∧ bytesToHex (hexToBytes canonical) = canonical
  ∧ hexToBytes canonical = hexToBytes str.
Proof.
  intro canonical. pose proof (wf_hexToBytes str) as Hwf.
  assert (Hvalid : validHex canonical = true).
  { unfold validHex, canonical.
    rewrite (lowerHex_isHex _ (lowerHex_bytesToHex _ Hwf)), andb_true_r.
    rewrite length_bytesToHex by done. apply Nat.even_spec. by eexists. }
  assert (Hback : hexToBytes canonical = hexToBytes str)
    by by apply hexToBytes_bytesToHex.
  split; [done|]. split; [|split; [|done]].
  - rewrite <- (bytesToHex_hexToBytes canonical Hvalid). by rewrite Hback.
  - by rewrite Hback.
Qed.

(** Decoding does not see the case of the digits. *)
Lemma hexToBytes_toLowerCase str :
  validHex str = true → hexToBytes (toLowerCase str) = hexToBytes str.
Proof.
  intro H. rewrite <- (bytesToHex_hexToBytes str H).
  apply hexToBytes_bytesToHex, wf_hexToBytes.
Qed.

(** ** What one chunk decodes to *)

(** [parseInt] of a two-unit chunk that starts with neither white space nor
    a sign: a [0x] prefix leaves nothing to read, otherwise the leading run
    of hex digits is read. *)
Lemma parseInt_pair_unsigned a b :
  isStrWhiteSpaceChar a = false → a ≠ 43%N → a ≠ 45%N →
  parseInt [a; b] 16
  = if ((a =? 48) && ((b =? 120) || (b =? 88)))%N then None
    else match takeWhile (isRadixDigit 16) [a; b] with
         | [] => None
         | ds => Some (digitsValue 16 ds)
         end.
Proof.
  intros Hws H43 H45. unfold parseInt. cbn [dropWhile]. rewrite Hws.
  apply N.eqb_neq in H43, H45. rewrite H43, H45. cbn [orb].
  change (negb (16 =? 0) && ((16 <? 2) || (36 <? 16))) with false.
  change ((16 =? 0) || (16 =? 16)) with true.
  change (if 16 =? 0 then 10 else 16) with 16. cbn [andb].
  destruct ((a =? 48)%N && ((b =? 120) || (b =? 88))%N); [reflexivity|].
  destruct (takeWhile (isRadixDigit 16) [a; b]); [reflexivity|].
  by rewrite Z.mul_1_l.
Qed.

Lemma hexUnit_plain a :
  isHexDigit a = true →
  isStrWhiteSpaceChar a = false ∧ a ≠ 43%N ∧ a ≠ 45%N
  ∧ ∃ v, digitValue a = Some v ∧ 0 ≤ v < 16.
Proof.
  intro H. apply hexUnits_complete in H. cbn in H.
  repeat destruct H as [<-|H]; try contradiction;
    (split; [reflexivity|split; [discriminate|split; [discriminate|]]]);
    eexists; (split; [reflexivity|cbn; lia]).
Qed.

(** X4.  Two hex digits decode to the byte they spell, the first digit being the
    high nibble, in either case. *)
Theorem chunkByte_hex_pair (a b : N) :
  isHexDigit a = true → isHexDigit b = true →
  ∃ hi lo, digitValue a = Some hi ∧ digitValue b = Some lo
           ∧ 0 ≤ hi < 16 ∧ 0 ≤ lo < 16
           ∧ parseInt [a; b] 16 = Some (16 * hi + lo)
           ∧ chunkByte [a; b] = 16 * hi + lo.
Proof.
  intros Ha Hb.
  destruct (hexUnit_plain a Ha) as (Hws & H43 & H45 & hi & Hhi & Rhi).
  destruct (hexUnit_plain b Hb) as (_ & _ & _ & lo & Hlo & Rlo).
  exists hi, lo. split; [done|]. split; [done|]. split; [done|]. split; [done|].
  assert (Hparse : parseInt [a; b] 16 = Some (16 * hi + lo)).
  { rewrite parseInt_pair_unsigned by done.
    assert (Hx : ((b =? 120) || (b =? 88))%N = false).
    { destruct (b =? 120)%N eqn:E1; [apply N.eqb_eq in E1; by subst|].
      destruct (b =? 88)%N eqn:E2; [apply N.eqb_eq in E2; by subst|]. done. }
    rewrite Hx, andb_false_r. cbn [takeWhile].
    unfold isHexDigit in Ha, Hb. rewrite Ha, Hb.
    unfold digitsValue. cbn [foldl]. rewrite Hhi, Hlo.
    unfold default. cbn [from_option id]. f_equal. lia. }
  split; [done|]. unfold chunkByte. rewrite Hparse. cbn [ToUint8].
  apply Z.mod_small. lia.
Qed.

Lemma chunkByte_hex_pair_witness :
  ∃ hi lo, digitValue 70%N = Some hi ∧ digitValue 97%N = Some lo
           ∧ chunkByte [70%N; 97%N] = 16 * hi + lo.
Proof.
  destruct (chunkByte_hex_pair 70 97) as (hi & lo & H1 & H2 & _ & _ & _ & H3).
  - reflexivity.
  - reflexivity.
  - exists hi, lo. exact (conj H1 (conj H2 H3)).
Defined.

(** X5.  A chunk whose first unit is no hex digit, no white space and no sign
    decodes to the byte 0, whatever follows: nothing is rejected. *)
Theorem chunkByte_not_a_number (a b : N) :
  isHexDigit a = false → isStrWhiteSpaceChar a = false →
  a ≠ 43%N → a ≠ 45%N →
  parseInt [a; b] 16 = None ∧ chunkByte [a; b] = 0.
Proof.
  intros Ha Hws H43 H45.
  assert (Hparse : parseInt [a; b] 16 = None).
  { rewrite parseInt_pair_unsigned by done.
    destruct ((a =? 48)%N && ((b =? 120) || (b =? 88))%N); [reflexivity|].
    cbn [takeWhile]. unfold isHexDigit in Ha. by rewrite Ha. }
  split; [done|]. unfold chunkByte. by rewrite Hparse.
Qed.

Lemma chunkByte_not_a_number_witness : chunkByte (lit "zz") = 0.
Proof.
  destruct (chunkByte_not_a_number 122 122) as [_ H].
  - reflexivity.
  - reflexivity.
  - discriminate.
  - discriminate.
  - exact H.
Defined.

(** X6.  A hex digit followed by a unit that is none decodes to the value of the
    digit alone, except that [0x] and [0X] decode to 0: the second unit is
    dropped without an error. *)
Theorem chunkByte_single_digit (a b : N) :
  isHexDigit a = true → isHexDigit b = false →
  chunkByte [a; b]
  = if ((a =? 48) && ((b =? 120) || (b =? 88)))%N then 0
    else default 0 (digitValue a).
Proof.
  intros Ha Hb.
  destruct (hexUnit_plain a Ha) as (Hws & H43 & H45 & v & Hv & Rv).
  unfold chunkByte. rewrite parseInt_pair_unsigned by done.
  destruct ((a =? 48)%N && ((b =? 120) || (b =? 88))%N); [reflexivity|].
  cbn [takeWhile]. unfold isHexDigit in Ha, Hb. rewrite Ha, Hb.
  unfold digitsValue. cbn [foldl ToUint8]. rewrite Hv.
  unfold default. cbn [from_option id]. apply Z.mod_small. lia.
Qed.

Lemma chunkByte_single_digit_witness :
  chunkByte (lit "1g") = 1 ∧ chunkByte (lit "0x") = 0.
Proof.
  split.
  - exact (chunkByte_single_digit 49 103 eq_refl eq_refl).
  - exact (chunkByte_single_digit 48 120 eq_refl eq_refl).
Defined.

(** X7.  A sign is read: [+d] decodes to the digit and [-d] to its negative
    wrapped into a byte, so that ["-1"] is stored as 255. *)
Theorem chunkByte_signed (d : N) :
  isHexDigit d = true →
  chunkByte [43%N; d] = default 0 (digitValue d)
  ∧ chunkByte [45%N; d] = (- default 0 (digitValue d)) mod 256.
Proof.
  intro H. apply hexUnits_complete in H. cbn in H.
  repeat destruct H as [<-|H]; try contradiction; split; reflexivity.
Qed.

Lemma chunkByte_signed_witness : chunkByte (lit "-1") = 255.
Proof.
  destruct (chunkByte_signed 49) as [_ H].
  - reflexivity.
  - exact H.
Defined.

(** ** The key pair in terms of the input strings *)

Lemma getKeyPairFromDerivative_cases derivative :
  let sk := hexToBytes (CryptoDerivative.secretKey derivative) in
  let cc := hexToBytes (CryptoDerivative.chainCode derivative) in
  let pk := hexToBytes (CryptoDerivative.publicKey derivative) in
  ((length sk ≤ 64 ∧ length cc ≤ 32 ∧ length pk ≤ 32)%nat
   ∧ getKeyPairFromDerivative derivative
     = Resolved (keyPairOf derivative (assemble sk cc pk)))
  ∨ ((64 < length sk ∨ 32 < length cc ∨ 32 < length pk)%nat
     ∧ getKeyPairFromDerivative derivative
       = Rejected (JsError deriveFailure RangeError)).
Proof.
  intros sk cc pk.
  destruct (decide (length sk ≤ 64 ∧ length cc ≤ 32 ∧ length pk ≤ 32)%nat)
    as [(H1 & H2 & H3)|H].
  - left. split; [done|]. by apply getKeyPairFromDerivative_fits.
  - right. assert (64 < length sk ∨ 32 < length cc ∨ 32 < length pk)%nat by lia.
    split; [done|]. by apply getKeyPairFromDerivative_overrun.
Qed.

Lemma half_le n k : (n / 2 ≤ k ↔ n ≤ 2 * k + 1)%nat.
Proof.
  pose proof (Nat.div_mod_eq n 2) as E.
  pose proof (Nat.mod_upper_bound n 2) as B. lia.
Qed.

(** X9.  The outcome is decided by the lengths of the three strings alone: the
    call is rejected exactly when the secret key has 130 units or more, or
    the chain code or the public key 66 or more, and resolves otherwise,
    whatever the units are. *)
Theorem getKeyPairFromDerivative_rejected_iff derivative :
  (rejected (getKeyPairFromDerivative derivative)
   ↔ (130 ≤ length (CryptoDerivative.secretKey derivative)
      ∨ 66 ≤ length (CryptoDerivative.chainCode derivative)
      ∨ 66 ≤ length (CryptoDerivative.publicKey derivative))%nat)
  ∧ (fulfilled (getKeyPairFromDerivative derivative)
     ↔ ¬ rejected (getKeyPairFromDerivative derivative)).
Proof.
  pose proof (half_le (length (CryptoDerivative.secretKey derivative)) 64).
  pose proof (half_le (length (CryptoDerivative.chainCode derivative)) 32).
  pose proof (half_le (length (CryptoDerivative.publicKey derivative)) 32).
  destruct (getKeyPairFromDerivative_cases derivative) as [[Hfit ->]|[Hlong ->]];
    rewrite !length_hexToBytes in *.
  - split; split.
    + intros [e He]. discriminate.
    + lia.
    + intros _ [e He]. discriminate.
    + intros _. by eexists.
  - split; split.
    + lia.
    + intros _. by eexists.
    + intros [v Hv]. discriminate.
    + intros Hn. destruct Hn. by eexists.
Qed.

(** X10.  Whenever the call resolves, the secret key of the pair is tagged
    priv/hex and its value is a valid hex string of exactly 256 lower-case
    digits that decodes to 128 bytes, and the public key of the pair is
    tagged pub/hex and carries the input string as it came, valid hex or
    not. *)
Theorem getKeyPairFromDerivative_resolved_shape derivative (keyPair : KeyPair.t) :
  getKeyPairFromDerivative derivative = Resolved keyPair →
  SecretKey.type (KeyPair.secretKey keyPair) = lit "priv"
  ∧ SecretKey.format (KeyPair.secretKey keyPair) = lit "hex"
  ∧ length (SecretKey.value (KeyPair.secretKey keyPair)) = 256%nat
  ∧ forallb isLowerHexDigit (SecretKey.value (KeyPair.secretKey keyPair)) = true
  ∧ validHex (SecretKey.value (KeyPair.secretKey keyPair)) = true
  ∧ length (hexToBytes (SecretKey.value (KeyPair.secretKey keyPair))) = 128%nat
  ∧ PublicKey.type (KeyPair.publicKey keyPair) = lit "pub"
  ∧ PublicKey.format (KeyPair.publicKey keyPair) = lit "hex"
  ∧ PublicKey.value (KeyPair.publicKey keyPair)
    = CryptoDerivative.publicKey derivative.
Proof.
  intro H.
  destruct (getKeyPairFromDerivative_cases derivative) as [[_ E]|[_ E]];
    rewrite E in H; [|discriminate].
  injection H as <-. cbn [keyPairOf KeyPair.secretKey KeyPair.publicKey
    SecretKey.type SecretKey.format SecretKey.value
    PublicKey.type PublicKey.format PublicKey.value].
  set (buf := assemble _ _ _).
  assert (Hwf : wf buf)
    by (apply wf_assemble; apply wf_hexToBytes).
  assert (Hlen : length (bytesToHex buf) = 256%nat)
    by (rewrite length_bytesToHex by done; unfold buf;
        by rewrite length_assemble).
  assert (Hlow : forallb isLowerHexDigit (bytesToHex buf) = true)
    by by apply lowerHex_bytesToHex.
  repeat (split; [done|]).
  split; [|split; [|done]].
  - unfold validHex. by rewrite Hlen, (lowerHex_isHex _ Hlow).
  - rewrite hexToBytes_bytesToHex by done. apply length_assemble.
Qed.

Lemma getKeyPairFromDerivative_resolved_shape_witness :
  ∃ keyPair,
    getKeyPairFromDerivative malformedDerivative = Resolved keyPair
    ∧ length (SecretKey.value (KeyPair.secretKey keyPair)) = 256%nat
    ∧ PublicKey.value (KeyPair.publicKey keyPair) = lit "zz".
Proof.
  eexists. split; [vm_compute; reflexivity|].
  destruct (getKeyPairFromDerivative_resolved_shape malformedDerivative _ eq_refl)
    as (_ & _ & H1 & _ & _ & _ & _ & _ & H2).
  exact (conj H1 H2).
Defined.

(** ** The layout, offset by offset *)

Lemma lookup_inserts_case {A} (l k : list A) off i :
  (i < length l)%nat →
  list_inserts off k l !! i
  = if bool_decide (off ≤ i < off + length k)%nat then k !! (i - off)%nat
    else l !! i.
Proof.
  intro Hi. case_bool_decide as H.
  - by apply list_lookup_inserts.
  - destruct (decide (i < off)%nat).
    + by apply list_lookup_inserts_lt.
    + apply list_lookup_inserts_ge. lia.
Qed.

Lemma lookup_default_lt (l : list Z) j :
  (j < length l)%nat → l !! j = Some (default 0 (l !! j)).
Proof. intro H. by destruct (lookup_lt_is_Some_2 l j H) as [x ->]. Qed.

Lemma lookup_default_ge (l : list Z) j :
  (length l ≤ j)%nat → default 0 (l !! j) = 0.
Proof. intro H. by rewrite lookup_ge_None_2. Qed.

Lemma lookup_new n i : (i < n)%nat → new n !! i = Some 0.
Proof. apply lookup_replicate_2. Qed.

Lemma assemble_lookup sk cc pk i :
  (length sk ≤ 64)%nat → (length cc ≤ 32)%nat → (length pk ≤ 32)%nat →
  (i < 128)%nat →
  assemble sk cc pk !! i = Some (layoutByte sk cc pk i).
Proof.
  intros Hsk Hcc Hpk Hi. unfold assemble, layoutByte.
  rewrite lookup_inserts_case by (rewrite !length_inserts, length_new; lia).
  case_bool_decide as H96.
  - replace (i <? 32)%nat with false by (symmetry; apply Nat.ltb_ge; lia).
    replace (i <? 64)%nat with false by (symmetry; apply Nat.ltb_ge; lia).
    replace (i <? 96)%nat with false by (symmetry; apply Nat.ltb_ge; lia).
    apply lookup_default_lt. lia.
  - rewrite lookup_inserts_case by (rewrite length_new; lia).
    rewrite !length_inserts, length_new.
    case_bool_decide as H0.
    + replace (i <? 96)%nat with true by (symmetry; apply Nat.ltb_lt; lia).
      rewrite Nat.sub_0_r.
      rewrite lookup_inserts_case by (rewrite !length_inserts, length_new; lia).
      case_bool_decide as H64.
      * replace (i <? 32)%nat with false by (symmetry; apply Nat.ltb_ge; lia).
        replace (i <? 64)%nat with false by (symmetry; apply Nat.ltb_ge; lia).
        replace (i - 64 <? length cc)%nat with true
          by (symmetry; apply Nat.ltb_lt; lia).
        apply lookup_default_lt. lia.
      * rewrite lookup_inserts_case by (rewrite !length_inserts, length_new; lia).
        case_bool_decide as H32.
        -- replace (i <? 32)%nat with false by (symmetry; apply Nat.ltb_ge; lia).
           destruct (i <? 64)%nat eqn:E64.
           ++ apply lookup_default_lt. lia.
           ++ apply Nat.ltb_ge in E64.
              replace (i - 64 <? length cc)%nat with false
                by (symmetry; apply Nat.ltb_ge; lia).
              apply lookup_default_lt. lia.
        -- rewrite lookup_inserts_case by (rewrite length_new; lia).
           rewrite Nat.sub_0_r.
           case_bool_decide as H00.
           ++ replace (i <? 32)%nat with true
                by (symmetry; apply Nat.ltb_lt; lia).
              apply lookup_default_lt. lia.
           ++ rewrite lookup_new by lia. f_equal.
              destruct (i <? 32)%nat eqn:E32;
                [symmetry; apply lookup_default_ge;
                 apply Nat.ltb_lt in E32; lia|].
              destruct (i <? 64)%nat eqn:E64;
                [symmetry; apply lookup_default_ge;
                 apply Nat.ltb_ge in E32; lia|].
              apply Nat.ltb_ge in E64.
              replace (i - 64 <? length cc)%nat with false
                by (symmetry; apply Nat.ltb_ge; lia).
              symmetry. apply lookup_default_ge. lia.
    + replace (i <? 32)%nat with false by (symmetry; apply Nat.ltb_ge; lia).
      replace (i <? 64)%nat with false by (symmetry; apply Nat.ltb_ge; lia).
      replace (i <? 96)%nat with false by (symmetry; apply Nat.ltb_ge; lia).
      rewrite lookup_new by lia. f_equal.
      symmetry. apply lookup_default_ge. lia.
Qed.

(** X11.  Whenever the three decoded fields fit (secret key at most 64 bytes,
    chain code and public key at most 32), the 128 bytes behind the secret
    key of the pair are those of [layoutByte]: each field is left-aligned at
    its offset and followed by zeros; a secret key longer than 32 bytes is
    cut by its own second copy at offset 32, whose excess runs into the
    chain-code region from offset 64 and shows wherever the chain code is
    too short to cover it. *)
Theorem getKeyPairFromDerivative_layout derivative :
  let sk := hexToBytes (CryptoDerivative.secretKey derivative) in
  let cc := hexToBytes (CryptoDerivative.chainCode derivative) in
  let pk := hexToBytes (CryptoDerivative.publicKey derivative) in
  (length sk ≤ 64)%nat → (length cc ≤ 32)%nat → (length pk ≤ 32)%nat →
  getKeyPairFromDerivative derivative
  = Resolved (keyPairOf derivative (map (layoutByte sk cc pk) (seq 0 128))).
Proof.
  intros sk cc pk Hsk Hcc Hpk.
  rewrite getKeyPairFromDerivative_fits by done. fold sk cc pk.
  do 2 f_equal. apply list_eq. intro i.
  destruct (decide (i < 128)%nat) as [Hi|Hi].
  - rewrite assemble_lookup by done.
    rewrite list_lookup_fmap, lookup_seq_lt by done. reflexivity.
  - rewrite !lookup_ge_None_2; [done| |].
    + rewrite length_map, length_seq. lia.
    + rewrite length_assemble. lia.
Qed.

Lemma getKeyPairFromDerivative_layout_witness :
  getKeyPairFromDerivative spillingDerivative
  = Resolved
      (keyPairOf spillingDerivative
         (map (layoutByte
                 (hexToBytes (CryptoDerivative.secretKey spillingDerivative))
                 (hexToBytes (CryptoDerivative.chainCode spillingDerivative))
                 (hexToBytes (CryptoDerivative.publicKey spillingDerivative)))
              (seq 0 128))).
Proof.
  apply (getKeyPairFromDerivative_layout spillingDerivative);
    rewrite length_hexToBytes; cbn; lia.
Defined.

(** X8.  Leading white space is skipped: a white-space unit followed by a hex
    digit decodes to the digit. *)
Theorem chunkByte_leading_space (w d : N) :
  isStrWhiteSpaceChar w = true → isHexDigit d = true →
  chunkByte [w; d] = default 0 (digitValue d).
Proof.
  intros Hw Hd.
  destruct (hexUnit_plain d Hd) as (Hws & H43 & H45 & v & Hv & Rv).
  unfold chunkByte, parseInt. cbn [dropWhile]. rewrite Hw, Hws.
  apply N.eqb_neq in H43, H45. rewrite H43, H45. cbn [orb].
  change (negb (16 =? 0) && ((16 <? 2) || (36 <? 16))) with false.
  change (if 16 =? 0 then 10 else 16) with 16. cbn [takeWhile].
  unfold isHexDigit in Hd. rewrite Hd.
  unfold digitsValue. cbn [foldl ToUint8]. rewrite Hv.
  unfold default. cbn [from_option id].
  rewrite Z.mul_1_l. apply Z.mod_small. lia.
Qed.

Lemma chunkByte_leading_space_witness : chunkByte (lit " 5") = 5.
Proof. exact (chunkByte_leading_space 32 53 eq_refl eq_refl). Defined.

(** ** Valid hex fields *)

(** X12.  For three valid hex fields of 64 digits each, the call resolves and the
    secret key of the pair is the concatenation secret key, secret key,
    chain code, public key of the input strings, in lower case; the public
    key of the pair keeps the case of the input. *)
Theorem getKeyPairFromDerivative_hex_fields derivative :
  let secretKey := CryptoDerivative.secretKey derivative in
  let chainCode := CryptoDerivative.chainCode derivative in
  let publicKey := CryptoDerivative.publicKey derivative in
  validHex secretKey = true → validHex chainCode = true →
  validHex publicKey = true →
  length secretKey = 64%nat → length chainCode = 64%nat →
  length publicKey = 64%nat →
  getKeyPairFromDerivative derivative
  = Resolved
      {| KeyPair.secretKey :=
           {| SecretKey.type := lit "priv";
              SecretKey.format := lit "hex";
              SecretKey.value :=
                toLowerCase (secretKey ++ secretKey ++ chainCode ++ publicKey) |};
         KeyPair.publicKey :=
           {| PublicKey.type := lit "pub";
              PublicKey.format := lit "hex";
              PublicKey.value := publicKey |} |}.
Proof.
  intros secretKey chainCode publicKey Vs Vc Vp Ls Lc Lp.
  rewrite getKeyPairFromDerivative_32_32_32;
    try (rewrite length_hexToBytes; fold secretKey chainCode publicKey;
         rewrite ?Ls, ?Lc, ?Lp; reflexivity).
  fold secretKey chainCode publicKey. unfold keyPairOf.
  rewrite !bytesToHex_app, !bytesToHex_hexToBytes by done.
  unfold toLowerCase. by rewrite !map_app.
Qed.

Lemma getKeyPairFromDerivative_hex_fields_witness :
  getKeyPairFromDerivative upperCaseDerivative
  = Resolved
      {| KeyPair.secretKey :=
           {| SecretKey.type := lit "priv";
              SecretKey.format := lit "hex";
              SecretKey.value :=
                toLowerCase (times 32 (lit "AB") ++ times 32 (lit "AB")
                             ++ times 32 (lit "CD") ++ times 32 (lit "EF")) |};
         KeyPair.publicKey :=
           {| PublicKey.type := lit "pub";
              PublicKey.format := lit "hex";
              PublicKey.value := times 32 (lit "EF") |} |}.
Proof.
  apply (getKeyPairFromDerivative_hex_fields upperCaseDerivative);
    vm_compute; reflexivity.
Defined.

(** X13.  The secret key of the pair does not depend on the case of the hex
    digits: for valid hex fields, the derivative in lower case is rejected
    exactly when the original is, and otherwise yields the same secret key;
    only the public key of the pair, a copy of the input string, differs by
    its case. *)
Theorem getKeyPairFromDerivative_case_insensitive derivative :
  validHex (CryptoDerivative.secretKey derivative) = true →
  validHex (CryptoDerivative.chainCode derivative) = true →
  validHex (CryptoDerivative.publicKey derivative) = true →
  (∀ keyPair,
     getKeyPairFromDerivative derivative = Resolved keyPair →
     getKeyPairFromDerivative (lowerDerivative derivative)
     = Resolved
         {| KeyPair.secretKey := KeyPair.secretKey keyPair;
            KeyPair.publicKey :=
              {| PublicKey.type := lit "pub";
                 PublicKey.format := lit "hex";
                 PublicKey.value :=
                   toLowerCase (CryptoDerivative.publicKey derivative) |} |})
  ∧ (rejected (getKeyPairFromDerivative derivative)
     ↔ rejected (getKeyPairFromDerivative (lowerDerivative derivative))).
Proof.
  intros Vs Vc Vp.
  pose proof (hexToBytes_toLowerCase _ Vs) as Es.
  pose proof (hexToBytes_toLowerCase _ Vc) as Ec.
  pose proof (hexToBytes_toLowerCase _ Vp) as Ep.
  destruct (getKeyPairFromDerivative_cases derivative)
    as [[(Hs & Hc & Hp) E]|[Hlong E]]; rewrite E.
  - assert (E' : getKeyPairFromDerivative (lowerDerivative derivative)
                 = Resolved (keyPairOf (lowerDerivative derivative)
                     (assemble
                        (hexToBytes (CryptoDerivative.secretKey derivative))
                        (hexToBytes (CryptoDerivative.chainCode derivative))
                        (hexToBytes (CryptoDerivative.publicKey derivative))))).
    { rewrite getKeyPairFromDerivative_fits;
        cbn [lowerDerivative CryptoDerivative.secretKey
             CryptoDerivative.chainCode CryptoDerivative.publicKey];
        rewrite ?Es, ?Ec, ?Ep; done. }
    rewrite E'. split.
    + intros keyPair [= <-]. reflexivity.
    + split; intros [e He]; discriminate.
  - assert (E' : getKeyPairFromDerivative (lowerDerivative derivative)
                 = Rejected (JsError deriveFailure RangeError)).
    { apply getKeyPairFromDerivative_overrun.
      cbn [lowerDerivative CryptoDerivative.secretKey
           CryptoDerivative.chainCode CryptoDerivative.publicKey].
      by rewrite Es, Ec, Ep. }
    rewrite E'. split.
    + intros keyPair [=].
    + split; intros _; by eexists.
Qed.

Lemma getKeyPairFromDerivative_case_insensitive_witness :
  rejected (getKeyPairFromDerivative upperCaseDerivative)
  ↔ rejected (getKeyPairFromDerivative (lowerDerivative upperCaseDerivative)).
Proof.
  destruct (getKeyPairFromDerivative_case_insensitive upperCaseDerivative)
    as [_ H].
  - vm_compute. reflexivity.
  - vm_compute. reflexivity.
  - vm_compute. reflexivity.
  - exact H.
Defined.

(** X14.  Key pairs of full-length fields do not collide: when the fields of two
    derivatives decode to 32 bytes each and the secret keys of the two pairs
    have the same value, the decoded secret keys, chain codes and public
    keys are the same. *)
Theorem getKeyPairFromDerivative_injective
  (d d' : CryptoDerivative.t) (keyPair keyPair' : KeyPair.t) :
  length (hexToBytes (CryptoDerivative.secretKey d)) = 32%nat →
  length (hexToBytes (CryptoDerivative.chainCode d)) = 32%nat →
  length (hexToBytes (CryptoDerivative.publicKey d)) = 32%nat →
  length (hexToBytes (CryptoDerivative.secretKey d')) = 32%nat →
  length (hexToBytes (CryptoDerivative.chainCode d')) = 32%nat →
  length (hexToBytes (CryptoDerivative.publicKey d')) = 32%nat →
  getKeyPairFromDerivative d = Resolved keyPair →
  getKeyPairFromDerivative d' = Resolved keyPair' →
  SecretKey.value (KeyPair.secretKey keyPair)
  = SecretKey.value (KeyPair.secretKey keyPair') →
  hexToBytes (CryptoDerivative.secretKey d)
  = hexToBytes (CryptoDerivative.secretKey d')
  ∧ hexToBytes (CryptoDerivative.chainCode d)
    = hexToBytes (CryptoDerivative.chainCode d')
  ∧ hexToBytes (CryptoDerivative.publicKey d)
    = hexToBytes (CryptoDerivative.publicKey d').
Proof.
  intros Ls Lc Lp Ls' Lc' Lp' E E' Hv.
  rewrite getKeyPairFromDerivative_32_32_32 in E, E' by done.
  injection E as <-. injection E' as <-.
  cbn [keyPairOf KeyPair.secretKey SecretKey.value] in Hv.
  apply (f_equal hexToBytes) in Hv.
  rewrite !hexToBytes_bytesToHex in Hv
    by (unfold wf; rewrite !Forall_app; repeat split; apply wf_hexToBytes).
  apply app_inj_1 in Hv as [Hsk Hv]; [|congruence].
  apply app_inj_1 in Hv as [_ Hv]; [|congruence].
  apply app_inj_1 in Hv as [Hcc Hpk]; [|congruence].
  done.
Qed.

Lemma getKeyPairFromDerivative_injective_witness :
  hexToBytes (CryptoDerivative.secretKey upperCaseDerivative)
  = hexToBytes (CryptoDerivative.secretKey (lowerDerivative upperCaseDerivative)).
Proof.
  refine (proj1 (getKeyPairFromDerivative_injective
                   upperCaseDerivative (lowerDerivative upperCaseDerivative)
                   _ _ _ _ _ _ _ _ eq_refl eq_refl _)).
  - vm_compute. reflexivity.
  - vm_compute. reflexivity.
  - vm_compute. reflexivity.
  - vm_compute. reflexivity.
  - vm_compute. reflexivity.
  - vm_compute. reflexivity.
  - vm_compute. reflexivity.
Defined.

(** ** The loop ends *)


